(** * MRIConstants.h: the gyromagnetic-ratio constants of MDT

    The header [MRIConstants.h] consists of four object-like macros, each
    wrapped in an [#ifndef] guard:

    - [GAMMA_H]       is the literal [267.5987E6];
    - [GAMMA_H_HZ]    is [(GAMMA_H / (2 * M_PI))];
    - [GAMMA_H_SQ]    is [(GAMMA_H * GAMMA_H)];
    - [GAMMA_H_HZ_SQ] is [(GAMMA_H_HZ * GAMMA_H_HZ)].

    The development embeds what a C preprocessor and compiler do with that
    text: a macro table updated by guarded [#define] directives, macro
    replacement at the place of use, the parse of the replaced tokens as a
    multiplicative expression, and its evaluation in binary64 arithmetic
    (Rocq's primitive floats) or, for comparison, in exact rational
    arithmetic. *)

From Stdlib Require Import ZArith QArith Qabs.
From Stdlib Require Import Floats.PrimFloat Floats.FloatOps Floats.SpecFloat.
From stdpp Require Import gmap strings list fin_maps.

Local Open Scope string_scope.
Local Open Scope list_scope.

(** ** Tokens and directives *)

(** The preprocessing tokens the header is written with. A floating literal
    carries the binary64 value it denotes, an integer literal its value; a
    literal a consumer writes with a sign is one token here, which is sound
    next to [*] and [/], since the sign binds tighter than both. *)
Inductive token : Type :=
  | TDbl (f : float)
  | TInt (z : Z)
  | TId (s : string)
  | TLParen
  | TRParen
  | TStar
  | TSlash.

Definition is_ident (t : token) : bool :=
  match t with TId _ => true | _ => false end.

(** Two replacement lists are "identical" when they are token for token the
    same; floats are compared bit for bit. *)
Definition token_eqb (a b : token) : bool :=
  match a, b with
  | TDbl f, TDbl g => PrimFloat.Leibniz.eqb f g
  | TInt x, TInt y => Z.eqb x y
  | TId s, TId t => bool_decide (s = t)
  | TLParen, TLParen | TRParen, TRParen | TStar, TStar | TSlash, TSlash => true
  | _, _ => false
  end.

Fixpoint tokens_eqb (a b : list token) : bool :=
  match a, b with
  | [], [] => true
  | x :: a', y :: b' => token_eqb x y && tokens_eqb a' b'
  | _, _ => false
  end.

(** The macro table of a translation unit: object-like macros only. *)
Abbreviation macro_table := (gmap string (list token)).

#[warnings="-register-all"]
Inductive directive : Type :=
  | Define (name : string) (body : list token)
  | Ifndef (name : string) (block : list directive).

Inductive pp_error : Type :=
  | Redefined (name : string).

Inductive result (A : Type) : Type :=
  | Ok (a : A)
  | Err (e : pp_error).
Arguments Ok {A} a.
Arguments Err {A} e.

Definition bind_result {A B} (r : result A) (k : A -> result B) : result B :=
  match r with
  | Ok a => k a
  | Err e => Err e
  end.

(** [#define name body]: a fresh name is bound; a name that is already a
    macro may only be defined again with an identical replacement list, any
    other redefinition is refused. *)
Definition define (name : string) (body : list token) (tbl : macro_table)
  : result macro_table :=
  match tbl !! name with
  | None => Ok (<[name := body]> tbl)
  | Some old => if tokens_eqb old body then Ok tbl else Err (Redefined name)
  end.

(** A directive is run on the macro table; the block of an [#ifndef] is
    skipped when its name is defined. *)
Fixpoint run_directive (d : directive) (tbl : macro_table) : result macro_table :=
  match d with
  | Define name body => define name body tbl
  | Ifndef name block =>
      match tbl !! name with
      | Some _ => Ok tbl
      | None =>
          (fix run_block (ds : list directive) (t : macro_table) : result macro_table :=
             match ds with
             | [] => Ok t
             | d' :: ds' => bind_result (run_directive d' t) (run_block ds')
             end) block tbl
      end
  end.

Fixpoint run_directives (ds : list directive) (tbl : macro_table) : result macro_table :=
  match ds with
  | [] => Ok tbl
  | d :: ds' => bind_result (run_directive d tbl) (run_directives ds')
  end.

(** ** The header *)

Module MRIConstants.

Definition GAMMA_H : list token := [TDbl 267.5987E6].

Definition GAMMA_H_HZ : list token :=
  [TLParen; TId "GAMMA_H"; TSlash;
     TLParen; TInt 2; TStar; TId "M_PI"; TRParen; TRParen].

Definition GAMMA_H_SQ : list token :=
  [TLParen; TId "GAMMA_H"; TStar; TId "GAMMA_H"; TRParen].

Definition GAMMA_H_HZ_SQ : list token :=
  [TLParen; TId "GAMMA_H_HZ"; TStar; TId "GAMMA_H_HZ"; TRParen].

(** The text of [MRIConstants.h], directive by directive. *)
Definition header : list directive :=
  [ Ifndef "GAMMA_H" [Define "GAMMA_H" GAMMA_H];
    Ifndef "GAMMA_H_HZ" [Define "GAMMA_H_HZ" GAMMA_H_HZ];
    Ifndef "GAMMA_H_SQ" [Define "GAMMA_H_SQ" GAMMA_H_SQ];
    Ifndef "GAMMA_H_HZ_SQ" [Define "GAMMA_H_HZ_SQ" GAMMA_H_HZ_SQ] ].

Definition names : list string :=
  ["GAMMA_H"; "GAMMA_H_HZ"; "GAMMA_H_SQ"; "GAMMA_H_HZ_SQ"].

End MRIConstants.

(** [#include "MRIConstants.h"], once and [n] times in a row. *)
Definition include_header (tbl : macro_table) : result macro_table :=
  run_directives MRIConstants.header tbl.

Fixpoint include_times (n : nat) (tbl : macro_table) : result macro_table :=
  match n with
  | O => Ok tbl
  | S k => bind_result (include_header tbl) (include_times k)
  end.

(** ** Macro replacement *)

(** One token is replaced: an identifier that names a macro, and is not
    being replaced already (the names in [hide]), gives way to the
    replacement of its body, in which the name itself is not replaced again;
    every other token stays. *)
Definition expand_token (rec : list string -> list token -> option (list token))
    (tbl : macro_table) (hide : list string) (t : token) : option (list token) :=
  match t with
  | TId s =>
      if bool_decide (s ∈ hide) then Some [t]
      else match tbl !! s with
           | Some body => rec (s :: hide) body
           | None => Some [t]
           end
  | _ => Some [t]
  end.

(** Replacement of a token list. Every nested replacement hides one more
    defined name, so the nesting is at most [size tbl] deep; [fuel] counts
    the levels left, and [None] means that it ran out. *)
Fixpoint expand (fuel : nat) (tbl : macro_table) (hide : list string)
    (ts : list token) : option (list token) :=
  match fuel with
  | O => None
  | S k => List.concat (A:=token) <$> mapM (expand_token (expand k tbl) tbl hide) ts
  end.

Definition preprocess (tbl : macro_table) (ts : list token) : option (list token) :=
  expand (S (size tbl)) tbl [] ts.

(** ** Expressions *)

Inductive expr : Type :=
  | EDbl (f : float)
  | EInt (z : Z)
  | EId (s : string)
  | EMul (a b : expr)
  | EDiv (a b : expr).

(** Recursive descent over
    [primary ::= literal | identifier | "(" multiplicative ")"] and
    [multiplicative ::= primary (("*" | "/") primary)*], left associative.
    Every call consumes a token, so [S (length ts)] levels are enough. *)
Fixpoint parse_primary (n : nat) (ts : list token) : option (expr * list token) :=
  match n with
  | O => None
  | S k =>
      match ts with
      | TDbl f :: r => Some (EDbl f, r)
      | TInt z :: r => Some (EInt z, r)
      | TId s :: r => Some (EId s, r)
      | TLParen :: r =>
          match parse_primary k r with
          | Some (e, r1) =>
              match parse_rest k e r1 with
              | Some (e', TRParen :: r2) => Some (e', r2)
              | _ => None
              end
          | None => None
          end
      | _ => None
      end
  end
with parse_rest (n : nat) (acc : expr) (ts : list token) : option (expr * list token) :=
  match n with
  | O => None
  | S k =>
      match ts with
      | TStar :: r =>
          match parse_primary k r with
          | Some (e, r1) => parse_rest k (EMul acc e) r1
          | None => None
          end
      | TSlash :: r =>
          match parse_primary k r with
          | Some (e, r1) => parse_rest k (EDiv acc e) r1
          | None => None
          end
      | _ => Some (acc, ts)
      end
  end.

Definition parse (ts : list token) : option expr :=
  let n := S (length ts) in
  match parse_primary n ts with
  | Some (e, r1) =>
      match parse_rest n e r1 with
      | Some (e', []) => Some e'
      | _ => None
      end
  | None => None
  end.

(** ** Evaluation *)

(** The arithmetic an expression is evaluated in. *)
Class Arith (V : Type) : Type := {
  of_dbl : float -> option V;
  of_int : Z -> option V;
  arith_mul : V -> V -> option V;
  arith_div : V -> V -> option V
}.

Fixpoint eval {V : Type} `{Arith V} (e : expr) : option V :=
  match e with
  | EDbl f => of_dbl f
  | EInt z => of_int z
  | EId _ => None
  | EMul a b =>
      match eval a, eval b with
      | Some x, Some y => arith_mul x y
      | _, _ => None
      end
  | EDiv a b =>
      match eval a, eval b with
      | Some x, Some y => arith_div x y
      | _, _ => None
      end
  end.

(** *** C arithmetic: [int], [long] and [double] *)

Inductive value : Type :=
  | VInt (z : Z)
  | VLong (z : Z)
  | VDbl (f : float).

Definition INT_MIN : Z := - 2 ^ 31.
Definition INT_MAX : Z := 2 ^ 31 - 1.

Definition in_int (z : Z) : bool := (INT_MIN <=? z)%Z && (z <=? INT_MAX)%Z.

Definition LONG_MIN : Z := - 2 ^ 63.
Definition LONG_MAX : Z := 2 ^ 63 - 1.

Definition in_long (z : Z) : bool := (LONG_MIN <=? z)%Z && (z <=? LONG_MAX)%Z.

(** Conversion of an [int] to [double]; exact, an [int] has 32 bits. *)
Definition int_to_double (z : Z) : float :=
  SF2Prim match z with
          | Z0 => S754_zero false
          | Zpos p => S754_finite false p 0
          | Zneg p => S754_finite true p 0
          end.

(** Conversion of a [long] to [double]: the nearest binary64 number, a
    [long] has 64 bits. The magnitude of [LONG_MIN], a power of two, is
    halved to fit the 63 bits the conversion takes. *)
Definition long_to_double (z : Z) : float :=
  SF2Prim match z with
          | Z0 => S754_zero false
          | Zpos p => S754_finite false p 0
          | Zneg p =>
              if (Zpos p =? 2 ^ 63)%Z then S754_finite true (2 ^ 62) 1
              else S754_finite true p 0
          end.

(** The usual arithmetic conversions: an [int] operand meets a [long]
    operand as a [long], an integer operand meets a [double] operand as a
    [double]. Signed overflow and integer division by zero have no defined
    result. *)
Definition c_mul (x y : value) : option value :=
  match x, y with
  | VInt a, VInt b => if in_int (a * b) then Some (VInt (a * b)) else None
  | VInt a, VLong b | VLong a, VInt b | VLong a, VLong b =>
      if in_long (a * b) then Some (VLong (a * b)) else None
  | VInt a, VDbl g => Some (VDbl (int_to_double a * g))
  | VLong a, VDbl g => Some (VDbl (long_to_double a * g))
  | VDbl f, VInt b => Some (VDbl (f * int_to_double b))
  | VDbl f, VLong b => Some (VDbl (f * long_to_double b))
  | VDbl f, VDbl g => Some (VDbl (f * g))
  end.

Definition c_div (x y : value) : option value :=
  match x, y with
  | VInt a, VInt b =>
      if (b =? 0)%Z then None
      else if in_int (a ÷ b) then Some (VInt (a ÷ b)) else None
  | VInt a, VLong b | VLong a, VInt b | VLong a, VLong b =>
      if (b =? 0)%Z then None
      else if in_long (a ÷ b) then Some (VLong (a ÷ b)) else None
  | VInt a, VDbl g => Some (VDbl (int_to_double a / g))
  | VLong a, VDbl g => Some (VDbl (long_to_double a / g))
  | VDbl f, VInt b => Some (VDbl (f / int_to_double b))
  | VDbl f, VLong b => Some (VDbl (f / long_to_double b))
  | VDbl f, VDbl g => Some (VDbl (f / g))
  end.

(** A decimal integer literal without suffix has the first of the types
    [int] and [long] that holds it; a sign written before it does not change
    that type. A literal too large for a [long] has no value here. *)
Definition literal_value (z : Z) : option value :=
  if (Z.abs z <=? INT_MAX)%Z then Some (VInt z)
  else if (Z.abs z <=? LONG_MAX)%Z then Some (VLong z)
  else None.

#[export] Instance c_arith : Arith value := {
  of_dbl f := Some (VDbl f);
  of_int := literal_value;
  arith_mul := c_mul;
  arith_div := c_div
}.

(** *** Exact arithmetic: rationals *)

(** The rational a binary64 number stands for; none for infinities and NaN. *)
Definition SF2Q (x : spec_float) : option Q :=
  match x with
  | S754_zero _ => Some 0%Q
  | S754_finite s m e =>
      let n := if s then Zneg m else Zpos m in
      Some match e with
           | Z0 => n # 1
           | Zpos k => (n * Z.pow_pos 2 k) # 1
           | Zneg k => n # Pos.pow 2 k
           end
  | _ => None
  end.

Definition F2Q (f : float) : option Q := SF2Q (Prim2SF f).

Definition q_div (x y : Q) : option Q :=
  if Qeq_bool y 0 then None else Some (x / y)%Q.

Definition q_arith : Arith Q := {|
  of_dbl := F2Q;
  of_int z := Some (inject_Z z);
  arith_mul x y := Some (x * y)%Q;
  arith_div := q_div
|}.

(** ** The value of a constant *)

(** A use of [name] in a translation unit whose macro table is [tbl]: the
    name is replaced, the result parsed and evaluated. *)
Definition constant_expr (tbl : macro_table) (name : string) : option expr :=
  match preprocess tbl [TId name] with
  | Some ts => parse ts
  | None => None
  end.

Definition constant_value (tbl : macro_table) (name : string) : option value :=
  match constant_expr tbl name with
  | Some e => eval e
  | None => None
  end.

Definition exact_value (tbl : macro_table) (name : string) : option Q :=
  match constant_expr tbl name with
  | Some e => @eval Q q_arith e
  | None => None
  end.

(** Modelled from the spec: [M_PI] is not defined by the header but by the
    host's math library, as pi to double precision; the literal
    3.14159265358979323846 denotes this binary64 number. *)
Definition M_PI : float := 0x1.921fb54442d18p+1.

(** The macro table a consumer starts from: the host's [M_PI]. *)
Definition host_env : macro_table := {[ "M_PI" := [TDbl M_PI] ]}.

(** A consumer's macro table that binds [GAMMA_H] to the literal [v]. *)
Definition with_base (v : float) : macro_table :=
  <["GAMMA_H" := [TDbl v]]> host_env.

(** The three derived macros, bound on top of [tbl]. *)
Definition derived (tbl : macro_table) : macro_table :=
  <["GAMMA_H_HZ_SQ" := MRIConstants.GAMMA_H_HZ_SQ]>
    (<["GAMMA_H_SQ" := MRIConstants.GAMMA_H_SQ]>
       (<["GAMMA_H_HZ" := MRIConstants.GAMMA_H_HZ]> tbl)).

(** The macro table after the header has been included in [host_env]. *)
Definition mri_env : macro_table :=
  derived (<["GAMMA_H" := MRIConstants.GAMMA_H]> host_env).

(** What a name stands for after some inclusions, if they went through: its
    replacement list, its value in C arithmetic and in exact arithmetic. *)
Definition binding_after (r : result macro_table) (name : string)
  : option (list token) :=
  match r with
  | Ok t => t !! name
  | Err _ => None
  end.

Definition value_after (r : result macro_table) (name : string) : option value :=
  match r with
  | Ok t => constant_value t name
  | Err _ => None
  end.

Definition exact_after (r : result macro_table) (name : string) : option Q :=
  match r with
  | Ok t => exact_value t name
  | Err _ => None
  end.

(** The constants of a consumer that includes the header and defines
    nothing itself. *)
Definition header_binding : string -> option (list token) :=
  binding_after (include_header host_env).

Definition header_value : string -> option value :=
  value_after (include_header host_env).

Definition header_exact : string -> option Q :=
  exact_after (include_header host_env).

(** The expressions the derived constants stand for over a base literal [v]
    and a literal [p] for [M_PI]. *)
Definition hz_expr (v p : float) : expr :=
  EDiv (EDbl v) (EMul (EInt 2) (EDbl p)).

Definition sq_expr (v : float) : expr := EMul (EDbl v) (EDbl v).

Definition hz_sq_expr (v p : float) : expr := EMul (hz_expr v p) (hz_expr v p).

(** ** What an inclusion does to the macro table *)

(** The effect of one guarded definition: bind the name if it is free. *)
Definition define_if_absent (name : string) (body : list token)
    (tbl : macro_table) : macro_table :=
  match tbl !! name with
  | Some _ => tbl
  | None => <[name := body]> tbl
  end.

Definition included (tbl : macro_table) : macro_table :=
  define_if_absent "GAMMA_H_HZ_SQ" MRIConstants.GAMMA_H_HZ_SQ
    (define_if_absent "GAMMA_H_SQ" MRIConstants.GAMMA_H_SQ
       (define_if_absent "GAMMA_H_HZ" MRIConstants.GAMMA_H_HZ
          (define_if_absent "GAMMA_H" MRIConstants.GAMMA_H tbl))).

Definition closed_token (t : token) : Prop := is_ident t = false.

Fixpoint closed (e : expr) : Prop :=
  match e with
  | EId _ => False
  | EMul a b | EDiv a b => closed a /\ closed b
  | _ => True
  end.

(** Closeness of two rationals, relative to the second. *)
Definition rel_close (tol x y : Q) : bool :=
  Qle_bool (Qabs (x - y)) (tol * Qabs y).

(** A binary64 number is within relative distance [tol] of the rational [y]. *)
Definition approx (tol : Q) (f : float) (y : Q) : bool :=
  match F2Q f with
  | Some x => rel_close tol x y
  | None => false
  end.

Definition positive_finite (f : float) : bool :=
  (0 <? f)%float && PrimFloat.is_finite f.

(** The four macros of the header, as a table of their own. *)
Definition header_macros : macro_table :=
  derived (<["GAMMA_H" := MRIConstants.GAMMA_H]> ∅).

(** None of the four names is defined. *)
Definition names_free (tbl : macro_table) : Prop :=
  Forall (fun name => tbl !! name = None) MRIConstants.names.

(** The value of an expression a consumer writes with the constants. *)
Definition expression_value (tbl : macro_table) (ts : list token) : option value :=
  match preprocess tbl ts with
  | Some r =>
      match parse r with
      | Some e => eval e
      | None => None
      end
  | None => None
  end.

Definition expression_after (r : result macro_table) (ts : list token)
  : option value :=
  match r with
  | Ok t => expression_value t ts
  | Err _ => None
  end.

(** The identifiers of a token are among the names [L]; the bodies a table
    binds to the names [L] mention names of [L] only. *)
Definition ident_inb (L : list string) (t : token) : bool :=
  match t with
  | TId s => bool_decide (s ∈ L)
  | _ => true
  end.

Definition closed_under (tbl : macro_table) (L : list string) : bool :=
  forallb (fun s => match tbl !! s with
                    | Some body => forallb (ident_inb L) body
                    | None => true
                    end) L.

Section Inclusion.

Implicit Types (tbl : macro_table) (name : string) (body : list token).

Lemma run_guarded_define name body tbl :
  run_directive (Ifndef name [Define name body]) tbl
  = Ok (define_if_absent name body tbl).
Proof.
  cbn. unfold define, define_if_absent.
  destruct (tbl !! name); reflexivity.
Qed.

Lemma include_header_included tbl : include_header tbl = Ok (included tbl).
Proof.
  unfold include_header, MRIConstants.header, included.
  repeat (cbn [run_directives]; rewrite run_guarded_define; cbn [bind_result]).
  reflexivity.
Qed.

Lemma define_if_absent_subseteq name body tbl :
  tbl ⊆ define_if_absent name body tbl.
Proof.
  unfold define_if_absent. destruct (tbl !! name) eqn:E; [done|].
  by apply insert_subseteq.
Qed.

Lemma define_if_absent_defined name body tbl :
  is_Some (define_if_absent name body tbl !! name).
Proof.
  unfold define_if_absent. destruct (tbl !! name) eqn:E.
  - rewrite E. eauto.
  - rewrite lookup_insert_eq. eauto.
Qed.

Lemma define_if_absent_id name body tbl :
  is_Some (tbl !! name) -> define_if_absent name body tbl = tbl.
Proof. intros [b E]. unfold define_if_absent. by rewrite E. Qed.

Lemma define_if_absent_fresh name body tbl :
  tbl !! name = None -> define_if_absent name body tbl = <[name := body]> tbl.
Proof. intros E. unfold define_if_absent. by rewrite E. Qed.

Lemma define_if_absent_keeps name body name' tbl :
  is_Some (tbl !! name') -> is_Some (define_if_absent name body tbl !! name').
Proof.
  intros [b E]. exists b.
  eapply lookup_weaken; [exact E | apply define_if_absent_subseteq].
Qed.

Lemma included_subseteq tbl : tbl ⊆ included tbl.
Proof.
  unfold included.
  repeat (etrans; [| apply define_if_absent_subseteq]). done.
Qed.

Lemma included_defined name tbl :
  name ∈ MRIConstants.names -> is_Some (included tbl !! name).
Proof.
  unfold MRIConstants.names, included. intros Hin.
  repeat (apply elem_of_cons in Hin as [-> | Hin]);
    [ | | | | by apply elem_of_nil in Hin ];
    repeat first [ apply define_if_absent_defined
                 | apply define_if_absent_keeps ].
Qed.

Lemma included_idem tbl : included (included tbl) = included tbl.
Proof.
  pose proof (included_defined "GAMMA_H" tbl) as H1.
  pose proof (included_defined "GAMMA_H_HZ" tbl) as H2.
  pose proof (included_defined "GAMMA_H_SQ" tbl) as H3.
  pose proof (included_defined "GAMMA_H_HZ_SQ" tbl) as H4.
  unfold MRIConstants.names in *.
  unfold included at 1.
  rewrite (define_if_absent_id "GAMMA_H") by (apply H1; set_solver).
  rewrite (define_if_absent_id "GAMMA_H_HZ") by (apply H2; set_solver).
  rewrite (define_if_absent_id "GAMMA_H_SQ") by (apply H3; set_solver).
  rewrite (define_if_absent_id "GAMMA_H_HZ_SQ") by (apply H4; set_solver).
  reflexivity.
Qed.

(** Where the four names are defined an inclusion does nothing. *)
Lemma include_header_noop tbl :
  Forall (fun name => is_Some (tbl !! name)) MRIConstants.names ->
  include_header tbl = Ok tbl.
Proof.
  unfold MRIConstants.names. intros H.
  rewrite include_header_included. unfold included.
  apply Forall_cons in H as [H1 H]. apply Forall_cons in H as [H2 H].
  apply Forall_cons in H as [H3 H]. apply Forall_cons in H as [H4 _].
  rewrite (define_if_absent_id "GAMMA_H") by done.
  rewrite (define_if_absent_id "GAMMA_H_HZ") by done.
  rewrite (define_if_absent_id "GAMMA_H_SQ") by done.
  by rewrite (define_if_absent_id "GAMMA_H_HZ_SQ").
Qed.

Lemma include_times_included n tbl :
  include_times (S n) tbl = Ok (included tbl).
Proof.
  revert tbl. induction n as [|n IH]; intros tbl.
  - cbn [include_times]. by rewrite include_header_included.
  - change (include_times (S (S n)) tbl)
      with (bind_result (include_header tbl) (include_times (S n))).
    rewrite include_header_included. cbn [bind_result].
    rewrite IH. by rewrite included_idem.
Qed.

End Inclusion.

(** ** Macro replacement under a larger table *)

Section Replacement.

Implicit Types (tbl : macro_table) (hide : list string) (ts r : list token).

Lemma expand_nil k tbl hide : expand (S k) tbl hide [] = Some [].
Proof. reflexivity. Qed.

Lemma expand_cons k tbl hide t ts :
  expand (S k) tbl hide (t :: ts)
  = match expand_token (expand k tbl) tbl hide t with
    | Some r1 =>
        match expand (S k) tbl hide ts with
        | Some r2 => Some (r1 ++ r2)
        | None => None
        end
    | None => None
    end.
Proof.
  cbn. destruct (expand_token (expand k tbl) tbl hide t) as [r1|]; cbn; [|done].
  destruct (mapM (expand_token (expand k tbl) tbl hide) ts) as [rs|]; cbn; done.
Qed.

(** A replacement that left no identifier behind looked up defined names
    only; a larger table and more fuel replace the same way. *)
Lemma expand_closed_mono tbl tbl' :
  tbl ⊆ tbl' ->
  forall k k' hide ts r,
    k <= k' ->
    expand k tbl hide ts = Some r ->
    Forall closed_token r ->
    expand k' tbl' hide ts = Some r.
Proof.
  intros Hsub. induction k as [|k IHk]; intros k' hide ts r Hle Hex Hcl.
  - discriminate.
  - destruct k' as [|k']; [lia|]. assert (Hk : k <= k') by lia. clear Hle.
    revert r Hex Hcl. induction ts as [|t ts IHts]; intros r Hex Hcl.
    + rewrite expand_nil in *. done.
    + rewrite expand_cons in Hex. rewrite expand_cons.
      destruct (expand_token (expand k tbl) tbl hide t) as [r1|] eqn:E1; [|done].
      destruct (expand (S k) tbl hide ts) as [r2|] eqn:E2; [|done].
      injection Hex as <-. apply Forall_app in Hcl as [Hc1 Hc2].
      rewrite (IHts r2 eq_refl Hc2).
      assert (expand_token (expand k' tbl') tbl' hide t = Some r1) as ->; [|done].
      destruct t; try exact E1. cbn in *.
      destruct (bool_decide (s ∈ hide)).
      { injection E1 as <-. by inversion Hc1. }
      destruct (tbl !! s) as [body|] eqn:El.
      * rewrite (lookup_weaken _ _ _ _ El Hsub). by apply IHk.
      * injection E1 as <-. by inversion Hc1.
Qed.

Lemma parse_sound n :
  (forall ts e r, parse_primary n ts = Some (e, r) ->
     exists pre, ts = pre ++ r /\ (closed e -> Forall closed_token pre))
  /\ (forall acc ts e r, parse_rest n acc ts = Some (e, r) ->
     exists pre, ts = pre ++ r /\ (closed e -> closed acc /\ Forall closed_token pre)).
Proof.
  induction n as [|n [IHp IHr]]; [split; intros; discriminate|].
  split.
  - intros ts e r H. cbn in H.
    destruct ts as [|[f|z|s| | | |] ts]; try discriminate.
    + injection H as <- <-. exists [TDbl f]. split; [done|]. by repeat constructor.
    + injection H as <- <-. exists [TInt z]. split; [done|]. by repeat constructor.
    + injection H as <- <-. exists [TId s]. split; [done|]. intros [].
    + destruct (parse_primary n ts) as [[e1 r1]|] eqn:E1; [|done].
      destruct (parse_rest n e1 r1) as [[e2 [|[]]]|] eqn:E2; try discriminate.
      injection H as <- <-.
      apply IHp in E1 as (pre1 & -> & H1). apply IHr in E2 as (pre2 & -> & H2).
      exists (TLParen :: pre1 ++ pre2 ++ [TRParen]). split.
      * cbn. by rewrite <- !app_assoc.
      * intros Hc. destruct (H2 Hc) as [Hc1 Hp2].
        constructor; [done|]. rewrite !Forall_app. repeat split; auto.
        by repeat constructor.
  - intros acc ts e r H. cbn in H.
    destruct ts as [|[f|z|s| | | |] ts]; try (injection H as <- <-; by exists []).
    + destruct (parse_primary n ts) as [[e1 r1]|] eqn:E1; [|done].
      apply IHp in E1 as (pre1 & -> & H1). apply IHr in H as (pre2 & -> & H2).
      exists (TStar :: pre1 ++ pre2). split; [cbn; by rewrite <- app_assoc|].
      intros Hc. destruct (H2 Hc) as [[Ha Hc1] Hp2]. split; [done|].
      constructor; [done|]. rewrite Forall_app. auto.
    + destruct (parse_primary n ts) as [[e1 r1]|] eqn:E1; [|done].
      apply IHp in E1 as (pre1 & -> & H1). apply IHr in H as (pre2 & -> & H2).
      exists (TSlash :: pre1 ++ pre2). split; [cbn; by rewrite <- app_assoc|].
      intros Hc. destruct (H2 Hc) as [[Ha Hc1] Hp2]. split; [done|].
      constructor; [done|]. rewrite Forall_app. auto.
Qed.

Lemma parse_closed ts e : parse ts = Some e -> closed e -> Forall closed_token ts.
Proof.
  unfold parse. intros H Hc.
  destruct (parse_primary (S (length ts)) ts) as [[e1 r1]|] eqn:E1; [|done].
  destruct (parse_rest (S (length ts)) e1 r1) as [[e2 [|]]|] eqn:E2; try discriminate.
  injection H as ->.
  apply (proj1 (parse_sound _)) in E1 as (pre1 & -> & H1).
  apply (proj2 (parse_sound _)) in E2 as (pre2 & -> & H2).
  destruct (H2 Hc) as [Hc1 Hp2]. rewrite app_nil_r, Forall_app. auto.
Qed.

Lemma eval_closed {V : Type} (A : Arith V) e v : @eval V A e = Some v -> closed e.
Proof.
  revert v. induction e as [| | |a IHa b IHb|a IHa b IHb]; intros v H; cbn in *;
    try done;
    destruct (eval a) as [x|]; try done; destruct (eval b) as [y|]; try done;
    split; eauto.
Qed.

(** An expression without identifiers, once obtained for a constant, is
    obtained in every larger macro table as well. *)
Lemma constant_expr_mono tbl tbl' name e :
  tbl ⊆ tbl' -> constant_expr tbl name = Some e -> closed e ->
  constant_expr tbl' name = Some e.
Proof.
  unfold constant_expr, preprocess. intros Hsub H Hc.
  destruct (expand (S (size tbl)) tbl [] [TId name]) as [ts|] eqn:E; [|done].
  rewrite (expand_closed_mono tbl tbl' Hsub (S (size tbl)) (S (size tbl')) [] _ ts).
  - done.
  - apply le_n_S. by apply map_subseteq_size.
  - done.
  - by eapply parse_closed.
Qed.

Lemma constant_value_mono tbl tbl' name x :
  tbl ⊆ tbl' -> constant_value tbl name = Some x ->
  constant_value tbl' name = Some x.
Proof.
  unfold constant_value. intros Hsub H.
  destruct (constant_expr tbl name) as [e|] eqn:E; [|done].
  rewrite (constant_expr_mono tbl tbl' name e Hsub E); [done|].
  by eapply eval_closed.
Qed.

Lemma exact_value_mono tbl tbl' name q :
  tbl ⊆ tbl' -> exact_value tbl name = Some q ->
  exact_value tbl' name = Some q.
Proof.
  unfold exact_value. intros Hsub H.
  destruct (constant_expr tbl name) as [e|] eqn:E; [|done].
  rewrite (constant_expr_mono tbl tbl' name e Hsub E); [done|].
  exact (eval_closed q_arith e q H).
Qed.

End Replacement.

(** ** Macro replacement never runs out of fuel *)

Section Fuel.

Implicit Types (tbl : macro_table) (hide : list string) (ts : list token).

(** Distinct defined names are no more than the table has entries. *)
Lemma hidden_bound hide :
  forall tbl,
    NoDup hide ->
    (forall s, s ∈ hide -> is_Some (tbl !! s)) ->
    length hide <= size tbl.
Proof.
  induction hide as [|s hide IH]; intros tbl Hnd Hdef; cbn; [lia|].
  apply NoDup_cons in Hnd as [Hs Hnd].
  destruct (Hdef s) as [b Hb]; [left|].
  rewrite <- (insert_delete_id tbl s b Hb).
  rewrite map_size_insert_None by apply lookup_delete_eq.
  apply le_n_S, IH; [done|].
  intros s' Hs'. rewrite lookup_delete_ne.
  - apply Hdef. by right.
  - intros ->. contradiction.
Qed.

Lemma expand_total tbl :
  forall fuel hide ts,
    NoDup hide ->
    (forall s, s ∈ hide -> is_Some (tbl !! s)) ->
    size tbl < fuel + length hide ->
    is_Some (expand fuel tbl hide ts).
Proof.
  induction fuel as [|k IHk]; intros hide ts Hnd Hdef Hfuel.
  - pose proof (hidden_bound hide tbl Hnd Hdef). cbn in Hfuel. lia.
  - induction ts as [|t ts IHts]; [by rewrite expand_nil|].
    rewrite expand_cons. destruct IHts as [r2 ->].
    assert (is_Some (expand_token (expand k tbl) tbl hide t)) as [r1 ->]; [|eauto].
    destruct t; cbn; eauto.
    destruct (bool_decide (s ∈ hide)) eqn:Eh; [eauto|].
    apply bool_decide_eq_false in Eh.
    destruct (tbl !! s) as [body|] eqn:El; [|eauto].
    apply IHk.
    + by apply NoDup_cons.
    + intros s' [->|Hs']%elem_of_cons; eauto.
    + cbn. lia.
Qed.

(** The fuel [preprocess] starts with is enough for every token list. *)
Lemma preprocess_total tbl ts : is_Some (preprocess tbl ts).
Proof.
  apply expand_total.
  - apply NoDup_nil_2.
  - intros s Hs. by apply elem_of_nil in Hs.
  - cbn. lia.
Qed.

End Fuel.

(** ** The header included by a consumer *)

Section Consumer.

Implicit Types (tbl : macro_table) (v : float).

Lemma include_host : include_header host_env = Ok mri_env.
Proof. reflexivity. Qed.





Lemma mri_exprs :
  constant_expr mri_env "GAMMA_H" = Some (EDbl 267.5987E6)
  /\ constant_expr mri_env "GAMMA_H_HZ" = Some (hz_expr 267.5987E6 M_PI)
  /\ constant_expr mri_env "GAMMA_H_SQ" = Some (sq_expr 267.5987E6)
  /\ constant_expr mri_env "GAMMA_H_HZ_SQ" = Some (hz_sq_expr 267.5987E6 M_PI).
Proof. split_and!; by vm_compute. Qed.

End Consumer.

(** ** Exact arithmetic *)

Section Exact.

Local Open Scope Q_scope.

Lemma q_div_nonzero (x y : Q) : ~ y == 0 -> q_div x y = Some (x / y).
Proof.
  intros Hy. unfold q_div.
  destruct (Qeq_bool y 0) eqn:E; [|done].
  apply Qeq_bool_iff in E. contradiction.
Qed.

Lemma twice_nonzero (p : Q) : ~ p == 0 -> ~ inject_Z 2 * p == 0.
Proof.
  intros Hp H. apply Hp.
  destruct (Qmult_integral _ _ H) as [H2|H2]; [discriminate H2 | exact H2].
Qed.

(** In exact arithmetic the square of the quotient is the quotient of the
    squares, whatever the literals for the base and for [M_PI]. *)
Lemma exact_square_quotient (v p : float) (qv qp : Q) :
  F2Q v = Some qv -> F2Q p = Some qp -> ~ qp == 0 ->
  exists a b,
    @eval Q q_arith (hz_sq_expr v p) = Some a
    /\ @eval Q q_arith (sq_expr v) = Some b
    /\ a == b / ((inject_Z 2 * qp) * (inject_Z 2 * qp)).
Proof.
  intros Hv Hp Hnz. pose proof (twice_nonzero qp Hnz) as H2.
  exists ((qv / (inject_Z 2 * qp)) * (qv / (inject_Z 2 * qp))), (qv * qv).
  repeat split.
  - cbn. rewrite Hv, Hp. cbn. rewrite (q_div_nonzero _ _ H2). reflexivity.
  - cbn. rewrite Hv. reflexivity.
  - field. exact Hnz.
Qed.

End Exact.

(** ** Properties of the constants *)

(** Closed facts are settled by evaluation, one conjunct after the other, so
    that a number found for one conjunct is known in the next. *)
Ltac by_evaluation :=
  repeat (match goal with |- _ /\ _ => split; [by vm_compute|] end);
  by vm_compute.

(** Without its guard a definition can fail: a second [#define] of
    [GAMMA_H] with another replacement list is refused. *)
Example redefinition_refused :
  run_directives [Define "GAMMA_H" [TDbl 42.577E6]] mri_env
  = Err (Redefined "GAMMA_H").
Proof. by vm_compute. Qed.

(** C1, as the specification states it, fails: [GAMMA_H_HZ] is a finite
    number that is not within a relative distance of 1e-4 of 42577478.92,
    let alone within the rounding of binary64 arithmetic (about 1e-16). *)
Lemma GAMMA_H_HZ_is_not_42577478_92 :
  exists h q,
    header_value "GAMMA_H_HZ" = Some (VDbl h)
    /\ F2Q h = Some q
    /\ rel_close (1 # 10000) q (4257747892 # 100) = false.
Proof. do 2 eexists. by_evaluation. Qed.

(** C1, amended: for [GAMMA_H] defined as 267.5987E6 the constant
    [GAMMA_H_HZ], the base divided by [2 * M_PI] in binary64 arithmetic, is
    approximately 42589655.87: it is within a relative distance of 1e-12 of
    that number. *)
Theorem GAMMA_H_HZ_is_42589655_87 :
  header_value "GAMMA_H" = Some (VDbl 267.5987E6)
  /\ header_value "GAMMA_H_HZ" = Some (VDbl (267.5987E6 / (2 * M_PI)))
  /\ approx (1 # 1000000000000) (267.5987E6 / (2 * M_PI)) (4258965587 # 100) = true.
Proof. by_evaluation. Qed.

(** C2, as the specification states it, fails: [GAMMA_H_SQ] is a finite
    number that is not within a relative distance of 1e-4 of
    71628279419690000. *)
Lemma GAMMA_H_SQ_is_not_71628279419690000 :
  exists s q,
    header_value "GAMMA_H_SQ" = Some (VDbl s)
    /\ F2Q s = Some q
    /\ rel_close (1 # 10000) q (71628279419690000 # 1) = false.
Proof. do 2 eexists. by_evaluation. Qed.

(** C2, amended: for [GAMMA_H] defined as 267598700.0 the constant
    [GAMMA_H_SQ], the base multiplied by itself in binary64 arithmetic, is
    71609064241690000.0, and that is the square of 267598700 without any
    rounding. *)
Theorem GAMMA_H_SQ_is_71609064241690000 :
  header_value "GAMMA_H" = Some (VDbl 267598700.0)
  /\ header_value "GAMMA_H_SQ" = Some (VDbl (267598700.0 * 267598700.0))
  /\ F2Q (267598700.0 * 267598700.0) = Some (71609064241690000 # 1)%Q
  /\ exists q, header_exact "GAMMA_H_SQ" = Some q
               /\ (q == 71609064241690000 # 1)%Q.
Proof. do 3 (split; [by vm_compute|]). eexists. by_evaluation. Qed.

(** C3: where the consumer has not defined [GAMMA_H], the header binds it to
    the literal 267.5987E6, whose binary64 value is 267.5987 * 10^6 exactly,
    and that is the value of the constant. *)
Theorem GAMMA_H_is_literal (tbl : macro_table) :
  tbl !! "GAMMA_H" = None ->
  binding_after (include_header tbl) "GAMMA_H" = Some [TDbl 267.5987E6]
  /\ value_after (include_header tbl) "GAMMA_H" = Some (VDbl 267.5987E6)
  /\ exists q, F2Q 267.5987E6 = Some q
               /\ (q == (2675987 # 10000) * inject_Z (10 ^ 6))%Q.
Proof.
  intros Hfresh. rewrite include_header_included.
  assert (Hl : included tbl !! "GAMMA_H" = Some [TDbl 267.5987E6]).
  { apply (lookup_weaken (define_if_absent "GAMMA_H" MRIConstants.GAMMA_H tbl)).
    - rewrite (define_if_absent_fresh _ _ _ Hfresh). apply lookup_insert_eq.
    - unfold included. do 3 (etrans; [| apply define_if_absent_subseteq]). done. }
  split_and!.
  - exact Hl.
  - apply (constant_value_mono {[ "GAMMA_H" := [TDbl 267.5987E6] ]}).
    + by apply map_singleton_subseteq_l.
    + by vm_compute.
  - eexists. by_evaluation.
Qed.

Lemma GAMMA_H_is_literal_witness :
  binding_after (include_header host_env) "GAMMA_H" = Some [TDbl 267.5987E6]
  /\ value_after (include_header host_env) "GAMMA_H" = Some (VDbl 267.5987E6)
  /\ exists q, F2Q 267.5987E6 = Some q
               /\ (q == (2675987 # 10000) * inject_Z (10 ^ 6))%Q.
Proof. apply (GAMMA_H_is_literal host_env). reflexivity. Defined.

(** C4: [GAMMA_H_HZ] is bound to [(GAMMA_H / (2 * M_PI))] and its value is
    the value of [GAMMA_H] divided by twice the host's [M_PI], in binary64
    arithmetic. Multiplied back by [2 * M_PI] it gives [GAMMA_H] again, and
    over the rationals it is within one rounding (2^-53, relatively) of the
    exact quotient. *)
Theorem GAMMA_H_HZ_is_quotient :
  header_binding "GAMMA_H_HZ"
  = Some [TLParen; TId "GAMMA_H"; TSlash;
          TLParen; TInt 2; TStar; TId "M_PI"; TRParen; TRParen]
  /\ exists g h qg qh qp,
      header_value "GAMMA_H" = Some (VDbl g)
      /\ header_value "M_PI" = Some (VDbl M_PI)
      /\ header_value "GAMMA_H_HZ" = Some (VDbl h)
      /\ h = (g / (2 * M_PI))%float
      /\ (h * (2 * M_PI))%float = g
      /\ F2Q g = Some qg /\ F2Q h = Some qh /\ F2Q M_PI = Some qp
      /\ rel_close (1 # 9007199254740992) qh (qg / (2 * qp)) = true
      /\ rel_close (1 # 9007199254740992) (qh * (2 * qp)) qg = true.
Proof.
  split; [by vm_compute|].
  do 5 eexists. by_evaluation.
Qed.

(** C5: the two squared constants are bound to the product of their base
    constant with itself, not to a literal; their values are the binary64
    products, and these are within a relative distance of 1e-12 of the exact
    squares of the base values. *)
Theorem squares_are_derived :
  header_binding "GAMMA_H_SQ"
  = Some [TLParen; TId "GAMMA_H"; TStar; TId "GAMMA_H"; TRParen]
  /\ header_binding "GAMMA_H_HZ_SQ"
     = Some [TLParen; TId "GAMMA_H_HZ"; TStar; TId "GAMMA_H_HZ"; TRParen]
  /\ exists g h qg qh,
      header_value "GAMMA_H" = Some (VDbl g)
      /\ header_value "GAMMA_H_HZ" = Some (VDbl h)
      /\ header_value "GAMMA_H_SQ" = Some (VDbl (g * g))
      /\ header_value "GAMMA_H_HZ_SQ" = Some (VDbl (h * h))
      /\ F2Q g = Some qg /\ F2Q h = Some qh
      /\ approx (1 # 1000000000000) (g * g) (qg * qg) = true
      /\ approx (1 # 1000000000000) (h * h) (qh * qh) = true.
Proof.
  do 2 (split; [by vm_compute|]).
  do 4 eexists. by_evaluation.
Qed.

(** C6: each of the four constants evaluates to a binary64 number that is
    strictly positive and finite. *)
Theorem constants_positive_finite :
  Forall (fun name =>
            exists x, header_value name = Some (VDbl x)
                      /\ positive_finite x = true)
         MRIConstants.names.
Proof.
  unfold MRIConstants.names.
  repeat (constructor; [eexists; by_evaluation|]). constructor.
Qed.

(** C7: including the header is idempotent. From every macro table, any
    number of inclusions in a row leaves the table one inclusion leaves, and
    no inclusion is refused for a redefinition; so each of the four
    constants has the value it has after a single inclusion. A later
    inclusion, whatever else has been defined in between, changes nothing
    either. *)
Theorem inclusion_idempotent (n : nat) (tbl : macro_table) :
  include_times (S n) tbl = include_header tbl
  /\ Forall (fun name =>
               value_after (include_times (S n) tbl) name
               = value_after (include_header tbl) name)
            MRIConstants.names
  /\ exists t,
      include_header tbl = Ok t
      /\ forall t', t ⊆ t' -> include_header t' = Ok t'.
Proof.
  rewrite include_times_included, include_header_included. split_and!.
  - reflexivity.
  - by apply Forall_forall.
  - exists (included tbl). split; [reflexivity|].
    intros t' Hsub. apply include_header_noop, Forall_forall.
    intros name Hin. destruct (included_defined name tbl Hin) as [b Hb].
    exists b. by eapply lookup_weaken.
Qed.

(** C8: define if absent. A binding that the consumer made for one of the
    four names before the inclusion is still the binding after it: the
    inclusion is not refused, the replacement list is the consumer's, and a
    value the consumer's constant had is the value it keeps. *)
Theorem first_definition_wins (tbl : macro_table) (name : string)
    (body : list token) :
  name ∈ MRIConstants.names ->
  tbl !! name = Some body ->
  exists t,
    include_header tbl = Ok t
    /\ t !! name = Some body
    /\ forall x, constant_value tbl name = Some x -> constant_value t name = Some x.
Proof.
  intros _ Hdef. exists (included tbl). split_and!.
  - apply include_header_included.
  - eapply lookup_weaken; [exact Hdef | apply included_subseteq].
  - intros x Hx. eapply constant_value_mono; [apply included_subseteq | exact Hx].
Qed.

Lemma first_definition_wins_witness :
  exists t,
    include_header (with_base 1) = Ok t
    /\ t !! "GAMMA_H" = Some [TDbl 1]
    /\ forall x, constant_value (with_base 1) "GAMMA_H" = Some x ->
                 constant_value t "GAMMA_H" = Some x.
Proof.
  apply (first_definition_wins (with_base 1) "GAMMA_H" [TDbl 1]).
  - apply list_elem_of_here.
  - reflexivity.
Defined.




(** C10: the two squared constants differ by the factor [(2 * M_PI)^2]. In
    exact arithmetic [GAMMA_H_HZ_SQ] equals [GAMMA_H_SQ] divided by the
    square of twice [M_PI]; in binary64 arithmetic the constant and that
    quotient are the same number, which is within two roundings (2^-52,
    relatively) of the exact quotient. *)
Theorem squares_differ_by_four_pi_squared :
  exists a b qp x y,
    header_exact "GAMMA_H_HZ_SQ" = Some a
    /\ header_exact "GAMMA_H_SQ" = Some b
    /\ header_exact "M_PI" = Some qp
    /\ (a == b / ((inject_Z 2 * qp) * (inject_Z 2 * qp)))%Q
    /\ header_value "GAMMA_H_HZ_SQ" = Some (VDbl x)
    /\ header_value "GAMMA_H_SQ" = Some (VDbl y)
    /\ x = (y / ((2 * M_PI) * (2 * M_PI)))%float
    /\ approx (1 # 4503599627370496) x
         (b / ((inject_Z 2 * qp) * (inject_Z 2 * qp))) = true.
Proof.
  unfold header_exact, header_value. rewrite include_host.
  cbn [exact_after value_after].
  destruct mri_exprs as (_ & _ & Esq & Ehzsq).
  destruct (F2Q 267.5987E6) as [qg|] eqn:Eg; [|by vm_compute in Eg].
  destruct (F2Q M_PI) as [qp|] eqn:Ep; [|by vm_compute in Ep].
  assert (Hnz : ~ (qp == 0)%Q).
  { vm_compute in Ep. injection Ep as <-. by vm_compute. }
  destruct (exact_square_quotient _ _ _ _ Eg Ep Hnz) as (a & b & Ea & Eb & Hab).
  exists a, b, qp. do 2 eexists. split_and!.
  - unfold exact_value. by rewrite Ehzsq.
  - unfold exact_value. by rewrite Esq.
  - rewrite <- Ep. by vm_compute.
  - exact Hab.
  - by vm_compute.
  - by vm_compute.
  - by vm_compute.
  - vm_compute in Eg, Ep. injection Eg as <-. injection Ep as <-.
    cbn in Eb. injection Eb as <-. by vm_compute.
Qed.

(** ** The inclusion as a union of macro tables *)

Section Union.

Implicit Types (tbl : macro_table) (name : string) (body : list token).

Lemma define_if_absent_union name body tbl :
  define_if_absent name body tbl = tbl ∪ {[ name := body ]}.
Proof.
  unfold define_if_absent. destruct (tbl !! name) as [old|] eqn:E.
  - apply map_eq. intros i. destruct (decide (i = name)) as [->|Hne].
    + rewrite lookup_union_l'; [done | by rewrite E].
    + rewrite lookup_union_l; [done | by apply lookup_singleton_ne].
  - by apply insert_union_singleton_r.
Qed.

Lemma included_union tbl : included tbl = tbl ∪ header_macros.
Proof.
  unfold included. rewrite !define_if_absent_union.
  rewrite <- !(assoc_L (∪)). reflexivity.
Qed.

Lemma header_macros_defined name :
  is_Some (header_macros !! name) <-> name ∈ MRIConstants.names.
Proof.
  unfold MRIConstants.names. split.
  - intros [b Hb]. unfold header_macros, derived in Hb.
    repeat (apply lookup_insert_Some in Hb as [[<- _]|[_ Hb]]; [set_solver|]).
    by rewrite lookup_empty in Hb.
  - intros Hin.
    repeat (apply elem_of_cons in Hin as [-> | Hin]); [ | | | | by apply elem_of_nil in Hin ];
      eexists; reflexivity.
Qed.

Lemma header_macros_other name :
  name ∉ MRIConstants.names -> header_macros !! name = None.
Proof.
  intros Hn. apply eq_None_not_Some. by rewrite header_macros_defined.
Qed.

End Union.

(** ** Macro replacement looks at the names it meets only *)

Section Locality.

Implicit Types (tbl : macro_table) (hide L : list string) (ts r : list token).

Lemma expand_fuel_mono tbl :
  forall k k' hide ts r,
    k <= k' -> expand k tbl hide ts = Some r -> expand k' tbl hide ts = Some r.
Proof.
  induction k as [|k IHk]; intros k' hide ts r Hle Hex; [discriminate|].
  destruct k' as [|k']; [lia|]. assert (Hk : k <= k') by lia. clear Hle.
  revert r Hex. induction ts as [|t ts IHts]; intros r Hex.
  - by rewrite expand_nil in *.
  - rewrite expand_cons in Hex. rewrite expand_cons.
    destruct (expand_token (expand k tbl) tbl hide t) as [r1|] eqn:E1; [|done].
    destruct (expand (S k) tbl hide ts) as [r2|] eqn:E2; [|done].
    rewrite (IHts r2 eq_refl).
    assert (expand_token (expand k' tbl) tbl hide t = Some r1) as ->; [|done].
    destruct t; try exact E1. cbn in *.
    destruct (bool_decide (s ∈ hide)); [done|].
    destruct (tbl !! s) as [body|]; [|done]. by apply IHk.
Qed.

(** Two tables that agree on a set of names closed under the bodies bound
    to them replace token lists over these names alike. *)
Lemma expand_agree tbl tbl' L :
  Forall (fun s => tbl !! s = tbl' !! s) L ->
  closed_under tbl' L = true ->
  forall k hide ts,
    forallb (ident_inb L) ts = true ->
    expand k tbl hide ts = expand k tbl' hide ts.
Proof.
  intros Hag Hcl. induction k as [|k IHk]; intros hide ts Hts; [done|].
  induction ts as [|t ts IHts]; [done|].
  cbn [forallb] in Hts. apply andb_prop in Hts as [Ht Hts].
  rewrite !expand_cons, (IHts Hts).
  assert (expand_token (expand k tbl) tbl hide t
          = expand_token (expand k tbl') tbl' hide t) as ->; [|done].
  destruct t; try reflexivity. cbn in Ht |- *.
  apply bool_decide_eq_true in Ht.
  destruct (bool_decide (s ∈ hide)); [done|].
  rewrite (proj1 (Forall_forall _ _) Hag s Ht).
  destruct (tbl' !! s) as [body|] eqn:El; [|done].
  apply IHk. unfold closed_under in Hcl.
  rewrite forallb_forall in Hcl. specialize (Hcl s).
  rewrite El in Hcl. apply Hcl. by apply list_elem_of_In.
Qed.

Lemma preprocess_agree tbl tbl' L ts :
  Forall (fun s => tbl !! s = tbl' !! s) L ->
  closed_under tbl' L = true ->
  forallb (ident_inb L) ts = true ->
  preprocess tbl ts = preprocess tbl' ts.
Proof.
  intros Hag Hcl Hts.
  destruct (preprocess_total tbl ts) as [r Hr].
  destruct (preprocess_total tbl' ts) as [r' Hr'].
  rewrite Hr, Hr'. unfold preprocess in *.
  set (K := S (size tbl) `max` S (size tbl')).
  apply (expand_fuel_mono _ _ K) in Hr; [|lia].
  apply (expand_fuel_mono _ _ K) in Hr'; [|lia].
  rewrite (expand_agree tbl tbl' L Hag Hcl K [] ts Hts) in Hr. congruence.
Qed.

Lemma constant_value_agree tbl tbl' L name :
  Forall (fun s => tbl !! s = tbl' !! s) L ->
  closed_under tbl' L = true ->
  name ∈ L ->
  constant_value tbl name = constant_value tbl' name.
Proof.
  intros Hag Hcl Hin. unfold constant_value, constant_expr.
  rewrite (preprocess_agree tbl tbl' L [TId name] Hag Hcl); [done|].
  cbn. by rewrite bool_decide_eq_true_2.
Qed.

Lemma expression_value_mono tbl tbl' ts x :
  tbl ⊆ tbl' -> expression_value tbl ts = Some x ->
  expression_value tbl' ts = Some x.
Proof.
  unfold expression_value, preprocess. intros Hsub H.
  destruct (expand (S (size tbl)) tbl [] ts) as [r|] eqn:E; [|done].
  destruct (parse r) as [e|] eqn:Ep; [|done].
  rewrite (expand_closed_mono tbl tbl' Hsub (S (size tbl)) (S (size tbl')) [] ts r).
  - by rewrite Ep.
  - apply le_n_S. by apply map_subseteq_size.
  - done.
  - eapply parse_closed; [exact Ep|]. by eapply eval_closed.
Qed.

End Locality.

(** ** More about the header in a consumer's translation unit *)

(** A table built by insertions lies within a union when each of its
    bindings is found there, on the left or, the left having none, on the
    right. *)
Ltac sub_table :=
  repeat (apply insert_subseteq_l;
          [ first [ by apply lookup_union_Some_l | by rewrite lookup_union_r ] | ]);
  apply map_empty_subseteq.

(** X1: an inclusion is never refused and yields the union of the
    consumer's macro table with the four macros of the header, in which the
    consumer's bindings take precedence. *)
Theorem include_header_union (tbl : macro_table) :
  include_header tbl = Ok (tbl ∪ header_macros).
Proof. by rewrite include_header_included, included_union. Qed.

(** X2: after an inclusion the names that are defined are the names the
    consumer had defined and the four names of the header, no others. *)
Theorem defined_after_inclusion (tbl : macro_table) (name : string) :
  is_Some (binding_after (include_header tbl) name)
  <-> is_Some (tbl !! name) \/ name ∈ MRIConstants.names.
Proof.
  rewrite include_header_union. cbn [binding_after].
  by rewrite lookup_union_is_Some, header_macros_defined.
Qed.

(** X3: the header touches its four names only: whatever another name was
    bound to, or that it was not bound, is the same after the inclusion. In
    particular the header does not define [M_PI]. *)
Theorem other_names_untouched (tbl : macro_table) (name : string) :
  name ∉ MRIConstants.names ->
  binding_after (include_header tbl) name = tbl !! name.
Proof.
  intros Hn. rewrite include_header_union. cbn [binding_after].
  apply lookup_union_l. by apply header_macros_other.
Qed.

Lemma other_names_untouched_witness :
  binding_after (include_header ∅) "M_PI" = (∅ : macro_table) !! "M_PI".
Proof.
  apply (other_names_untouched ∅ "M_PI").
  apply (bool_decide_unpack _). exact I.
Defined.

(** X4: a definition of a name that is not one of the four commutes with
    the inclusion: [#define] before [#include] and [#include] before
    [#define] leave the same macro table, or are refused alike. *)
Theorem unrelated_define_commutes (tbl : macro_table) (name : string)
    (body : list token) :
  name ∉ MRIConstants.names ->
  bind_result (define name body tbl) include_header
  = bind_result (include_header tbl) (define name body).
Proof.
  intros Hn. rewrite include_header_union. cbn [bind_result]. unfold define.
  destruct (tbl !! name) as [old|] eqn:E.
  - rewrite (lookup_union_Some_l _ _ _ _ E).
    destruct (tokens_eqb old body); [|done].
    cbn [bind_result]. apply include_header_union.
  - rewrite lookup_union_r, header_macros_other by done.
    cbn [bind_result]. rewrite include_header_union. f_equal.
    symmetry. apply insert_union_l.
Qed.

Lemma unrelated_define_commutes_witness :
  bind_result (define "M_PI" [TDbl M_PI] ∅) include_header
  = bind_result (include_header ∅) (define "M_PI" [TDbl M_PI]).
Proof.
  apply (unrelated_define_commutes ∅ "M_PI" [TDbl M_PI]).
  apply (bool_decide_unpack _). exact I.
Defined.

(** X5: the header relies on the host for [M_PI]. Where neither [M_PI] nor
    any of the four names is defined before the inclusion, [GAMMA_H] and
    [GAMMA_H_SQ] have their values after it, while [GAMMA_H_HZ] and
    [GAMMA_H_HZ_SQ] are not constants: an identifier is left in them. *)
Theorem without_M_PI (tbl : macro_table) :
  tbl !! "M_PI" = None ->
  names_free tbl ->
  value_after (include_header tbl) "GAMMA_H" = Some (VDbl 267.5987E6)
  /\ value_after (include_header tbl) "GAMMA_H_SQ"
     = Some (VDbl (267.5987E6 * 267.5987E6))
  /\ value_after (include_header tbl) "GAMMA_H_HZ" = None
  /\ value_after (include_header tbl) "GAMMA_H_HZ_SQ" = None.
Proof.
  intros Hpi Hfree. rewrite include_header_union. cbn [value_after].
  set (L := "M_PI" :: MRIConstants.names).
  assert (Hag : Forall (fun s => (tbl ∪ header_macros) !! s = header_macros !! s) L).
  { apply Forall_cons. split.
    - by apply lookup_union_r.
    - eapply Forall_impl; [exact Hfree|]. intros s Hs. by apply lookup_union_r. }
  assert (Hcl : closed_under header_macros L = true) by (by vm_compute).
  split_and!.
  - rewrite (constant_value_agree _ _ L "GAMMA_H" Hag Hcl) by set_solver.
    by vm_compute.
  - rewrite (constant_value_agree _ _ L "GAMMA_H_SQ" Hag Hcl) by set_solver.
    by vm_compute.
  - rewrite (constant_value_agree _ _ L "GAMMA_H_HZ" Hag Hcl) by set_solver.
    by vm_compute.
  - rewrite (constant_value_agree _ _ L "GAMMA_H_HZ_SQ" Hag Hcl) by set_solver.
    by vm_compute.
Qed.

Lemma without_M_PI_witness :
  value_after (include_header ∅) "GAMMA_H" = Some (VDbl 267.5987E6)
  /\ value_after (include_header ∅) "GAMMA_H_SQ"
     = Some (VDbl (267.5987E6 * 267.5987E6))
  /\ value_after (include_header ∅) "GAMMA_H_HZ" = None
  /\ value_after (include_header ∅) "GAMMA_H_HZ_SQ" = None.
Proof.
  apply (without_M_PI ∅); [reflexivity|].
  unfold names_free, MRIConstants.names. repeat constructor.
Defined.

(** X6: the derived constants use the [M_PI] of the consumer. Where [M_PI]
    is the literal [p] and none of the four names is defined before the
    inclusion, [GAMMA_H_HZ] is [267.5987E6 / (2 * p)] and [GAMMA_H_HZ_SQ]
    its square, in binary64 arithmetic and whatever else is defined. *)
Theorem derived_follow_M_PI (tbl : macro_table) (p : float) :
  tbl !! "M_PI" = Some [TDbl p] ->
  names_free tbl ->
  value_after (include_header tbl) "GAMMA_H" = Some (VDbl 267.5987E6)
  /\ value_after (include_header tbl) "GAMMA_H_HZ"
     = Some (VDbl (267.5987E6 / (2 * p)))
  /\ value_after (include_header tbl) "GAMMA_H_SQ"
     = Some (VDbl (267.5987E6 * 267.5987E6))
  /\ value_after (include_header tbl) "GAMMA_H_HZ_SQ"
     = Some (VDbl ((267.5987E6 / (2 * p)) * (267.5987E6 / (2 * p)))).
Proof.
  intros Hpi Hfree. rewrite include_header_union. cbn [value_after].
  unfold names_free, MRIConstants.names in Hfree.
  apply Forall_cons in Hfree as [F1 Hfree]. apply Forall_cons in Hfree as [F2 Hfree].
  apply Forall_cons in Hfree as [F3 Hfree]. apply Forall_cons in Hfree as [F4 _].
  set (m := <["M_PI" := [TDbl p]]> (<["GAMMA_H" := MRIConstants.GAMMA_H]>
            (<["GAMMA_H_HZ" := MRIConstants.GAMMA_H_HZ]>
            (<["GAMMA_H_SQ" := MRIConstants.GAMMA_H_SQ]>
            (<["GAMMA_H_HZ_SQ" := MRIConstants.GAMMA_H_HZ_SQ]> ∅)))) : macro_table).
  assert (Hsub : m ⊆ tbl ∪ header_macros) by (subst m; sub_table).
  split_and!; apply (constant_value_mono m _ _ _ Hsub); by vm_compute.
Qed.

Lemma derived_follow_M_PI_witness :
  value_after (include_header (<["M_PI" := [TDbl 3]]> ∅)) "GAMMA_H"
  = Some (VDbl 267.5987E6)
  /\ value_after (include_header (<["M_PI" := [TDbl 3]]> ∅)) "GAMMA_H_HZ"
     = Some (VDbl (267.5987E6 / (2 * 3)))
  /\ value_after (include_header (<["M_PI" := [TDbl 3]]> ∅)) "GAMMA_H_SQ"
     = Some (VDbl (267.5987E6 * 267.5987E6))
  /\ value_after (include_header (<["M_PI" := [TDbl 3]]> ∅)) "GAMMA_H_HZ_SQ"
     = Some (VDbl ((267.5987E6 / (2 * 3)) * (267.5987E6 / (2 * 3)))).
Proof.
  apply (derived_follow_M_PI (<["M_PI" := [TDbl 3]]> ∅) 3); [reflexivity|].
  unfold names_free, MRIConstants.names. repeat constructor.
Defined.

(** X7: [GAMMA_H_HZ_SQ] follows [GAMMA_H_HZ], not [GAMMA_H]. Where the
    consumer has defined [GAMMA_H_HZ] as the literal [h] and not
    [GAMMA_H_HZ_SQ], the latter is [h * h] after the inclusion, whatever
    [GAMMA_H] and [M_PI] are, or whether they are defined at all. *)
Theorem square_follows_GAMMA_H_HZ (tbl : macro_table) (h : float) :
  tbl !! "GAMMA_H_HZ" = Some [TDbl h] ->
  tbl !! "GAMMA_H_HZ_SQ" = None ->
  value_after (include_header tbl) "GAMMA_H_HZ" = Some (VDbl h)
  /\ value_after (include_header tbl) "GAMMA_H_HZ_SQ" = Some (VDbl (h * h)).
Proof.
  intros H1 H2. rewrite include_header_union. cbn [value_after].
  set (m := <["GAMMA_H_HZ" := [TDbl h]]>
            (<["GAMMA_H_HZ_SQ" := MRIConstants.GAMMA_H_HZ_SQ]> ∅) : macro_table).
  assert (Hsub : m ⊆ tbl ∪ header_macros) by (subst m; sub_table).
  split; apply (constant_value_mono m _ _ _ Hsub); by vm_compute.
Qed.

Lemma square_follows_GAMMA_H_HZ_witness :
  value_after (include_header (<["GAMMA_H_HZ" := [TDbl 5]]> ∅)) "GAMMA_H_HZ"
  = Some (VDbl 5)
  /\ value_after (include_header (<["GAMMA_H_HZ" := [TDbl 5]]> ∅)) "GAMMA_H_HZ_SQ"
     = Some (VDbl (5 * 5)).
Proof.
  apply (square_follows_GAMMA_H_HZ (<["GAMMA_H_HZ" := [TDbl 5]]> ∅) 5); reflexivity.
Defined.

(** X8: in exact arithmetic the two squares differ by the factor
    [(2 * M_PI)^2] for every base and every [M_PI]: where the consumer has
    defined [GAMMA_H] and [M_PI] as finite literals, [M_PI] not zero, and
    none of the derived names, [GAMMA_H_HZ_SQ] is [GAMMA_H_SQ] divided by
    the square of twice [M_PI]. *)
Theorem exact_squares_under_override (tbl : macro_table) (v p : float)
    (qv qp : Q) :
  tbl !! "GAMMA_H" = Some [TDbl v] ->
  tbl !! "M_PI" = Some [TDbl p] ->
  tbl !! "GAMMA_H_HZ" = None ->
  tbl !! "GAMMA_H_SQ" = None ->
  tbl !! "GAMMA_H_HZ_SQ" = None ->
  F2Q v = Some qv ->
  F2Q p = Some qp ->
  ~ (qp == 0)%Q ->
  exists a b,
    exact_after (include_header tbl) "GAMMA_H_HZ_SQ" = Some a
    /\ exact_after (include_header tbl) "GAMMA_H_SQ" = Some b
    /\ (a == b / ((inject_Z 2 * qp) * (inject_Z 2 * qp)))%Q.
Proof.
  intros H0 Hpi H1 H2 H3 Hv Hp Hnz.
  rewrite include_header_union. cbn [exact_after].
  set (m := <["GAMMA_H" := [TDbl v]]> (<["M_PI" := [TDbl p]]>
            (<["GAMMA_H_HZ" := MRIConstants.GAMMA_H_HZ]>
            (<["GAMMA_H_SQ" := MRIConstants.GAMMA_H_SQ]>
            (<["GAMMA_H_HZ_SQ" := MRIConstants.GAMMA_H_HZ_SQ]> ∅)))) : macro_table).
  assert (Hsub : m ⊆ tbl ∪ header_macros) by (subst m; sub_table).
  assert (E1 : constant_expr (tbl ∪ header_macros) "GAMMA_H_HZ_SQ"
               = Some (hz_sq_expr v p)).
  { apply (constant_expr_mono m _ _ _ Hsub); [by vm_compute | cbn; tauto]. }
  assert (E2 : constant_expr (tbl ∪ header_macros) "GAMMA_H_SQ"
               = Some (sq_expr v)).
  { apply (constant_expr_mono m _ _ _ Hsub); [by vm_compute | cbn; tauto]. }
  destruct (exact_square_quotient v p qv qp Hv Hp Hnz) as (a & b & Ea & Eb & Hab).
  exists a, b. unfold exact_value. rewrite E1, E2. done.
Qed.

Lemma exact_squares_under_override_witness :
  exists a b,
    exact_after (include_header (with_base 3)) "GAMMA_H_HZ_SQ" = Some a
    /\ exact_after (include_header (with_base 3)) "GAMMA_H_SQ" = Some b
    /\ (a == b / ((inject_Z 2 * (7074237752028440 # 2251799813685248))
                  * (inject_Z 2 * (7074237752028440 # 2251799813685248))))%Q.
Proof.
  apply (exact_squares_under_override (with_base 3) 3 M_PI
           (6755399441055744 # 2251799813685248)
           (7074237752028440 # 2251799813685248));
    try reflexivity; by vm_compute.
Defined.

(** X9: the macros are safe to use inside a product or a quotient. Where the
    consumer has the host's [M_PI] and none of the four names, then for
    every literal [a] and each of the four constants, of value [x], the
    expressions [a / NAME], [NAME / a] and [a * NAME] have the values
    [a / x], [x / a] and [a * x]: the parentheses of the replacement lists
    keep each constant together. *)
Theorem constants_keep_together (tbl : macro_table) (a : float) :
  tbl !! "M_PI" = Some [TDbl M_PI] ->
  names_free tbl ->
  Forall (fun name =>
            exists x,
              value_after (include_header tbl) name = Some (VDbl x)
              /\ expression_after (include_header tbl) [TDbl a; TSlash; TId name]
                 = Some (VDbl (a / x))
              /\ expression_after (include_header tbl) [TId name; TSlash; TDbl a]
                 = Some (VDbl (x / a))
              /\ expression_after (include_header tbl) [TDbl a; TStar; TId name]
                 = Some (VDbl (a * x)))
         MRIConstants.names.
Proof.
  intros Hpi Hfree. rewrite include_header_union.
  cbn [value_after expression_after].
  unfold names_free, MRIConstants.names in Hfree.
  apply Forall_cons in Hfree as [F1 Hfree]. apply Forall_cons in Hfree as [F2 Hfree].
  apply Forall_cons in Hfree as [F3 Hfree]. apply Forall_cons in Hfree as [F4 _].
  set (m := <["M_PI" := [TDbl M_PI]]> (<["GAMMA_H" := MRIConstants.GAMMA_H]>
            (<["GAMMA_H_HZ" := MRIConstants.GAMMA_H_HZ]>
            (<["GAMMA_H_SQ" := MRIConstants.GAMMA_H_SQ]>
            (<["GAMMA_H_HZ_SQ" := MRIConstants.GAMMA_H_HZ_SQ]> ∅)))) : macro_table).
  assert (Hsub : m ⊆ tbl ∪ header_macros) by (subst m; sub_table).
  unfold MRIConstants.names.
  repeat (constructor;
          [ eexists;
            split; [apply (constant_value_mono m _ _ _ Hsub); by vm_compute|];
            do 2 (split; [apply (expression_value_mono m _ _ _ Hsub); by vm_compute|]);
            apply (expression_value_mono m _ _ _ Hsub); by vm_compute | ]).
  constructor.
Qed.

Lemma constants_keep_together_witness :
  Forall (fun name =>
            exists x,
              value_after (include_header host_env) name = Some (VDbl x)
              /\ expression_after (include_header host_env) [TDbl 2; TSlash; TId name]
                 = Some (VDbl (2 / x))
              /\ expression_after (include_header host_env) [TId name; TSlash; TDbl 2]
                 = Some (VDbl (x / 2))
              /\ expression_after (include_header host_env) [TDbl 2; TStar; TId name]
                 = Some (VDbl (2 * x)))
         MRIConstants.names.
Proof.
  apply (constants_keep_together host_env 2); [reflexivity|].
  unfold names_free, MRIConstants.names. repeat constructor.
Defined.

(** X10: the header does not parenthesise its uses of [GAMMA_H]. Where the
    consumer has defined [GAMMA_H] as the quotient [a / b] of two floating
    literals without parentheses, and not [GAMMA_H_SQ], then [GAMMA_H] is
    [a / b] and [GAMMA_H_SQ] is [((a / b) * a) / b], the replaced text
    [a / b * a / b] read from left to right. *)
Theorem unparenthesised_base (tbl : macro_table) (a b : float) :
  tbl !! "GAMMA_H" = Some [TDbl a; TSlash; TDbl b] ->
  tbl !! "GAMMA_H_SQ" = None ->
  value_after (include_header tbl) "GAMMA_H" = Some (VDbl (a / b))
  /\ value_after (include_header tbl) "GAMMA_H_SQ"
     = Some (VDbl (((a / b) * a) / b)).
Proof.
  intros H1 H2. rewrite include_header_union. cbn [value_after].
  set (m := <["GAMMA_H" := [TDbl a; TSlash; TDbl b]]>
            (<["GAMMA_H_SQ" := MRIConstants.GAMMA_H_SQ]> ∅) : macro_table).
  assert (Hsub : m ⊆ tbl ∪ header_macros) by (subst m; sub_table).
  split; apply (constant_value_mono m _ _ _ Hsub); by vm_compute.
Qed.

Lemma unparenthesised_base_witness :
  value_after (include_header (<["GAMMA_H" := [TDbl 1; TSlash; TDbl 10]]> ∅))
    "GAMMA_H" = Some (VDbl (1 / 10))
  /\ value_after (include_header (<["GAMMA_H" := [TDbl 1; TSlash; TDbl 10]]> ∅))
       "GAMMA_H_SQ" = Some (VDbl (((1 / 10) * 1) / 10)).
Proof.
  apply (unparenthesised_base (<["GAMMA_H" := [TDbl 1; TSlash; TDbl 10]]> ∅) 1 10);
    reflexivity.
Defined.

(** That need not be the product of [a / b] with itself: at [1 / 10] the
    constant is 0.01 and the square of the value of [GAMMA_H] is
    0.010000000000000002. *)
Example unparenthesised_base_differs :
  exists x s,
    value_after (include_header (<["GAMMA_H" := [TDbl 1; TSlash; TDbl 10]]> ∅))
      "GAMMA_H" = Some (VDbl x)
    /\ value_after (include_header (<["GAMMA_H" := [TDbl 1; TSlash; TDbl 10]]> ∅))
         "GAMMA_H_SQ" = Some (VDbl s)
    /\ PrimFloat.Leibniz.eqb s (x * x) = false.
Proof. do 2 eexists. by_evaluation. Qed.

(** X11: an integer base is squared in the integer type of its literal.
    Where the consumer has defined [GAMMA_H] as the integer literal [n] and
    not [GAMMA_H_SQ], then [GAMMA_H_SQ] is, for a literal of type [int], the
    [int] [n * n] when that fits an [int]; for a literal of type [long], the
    [long] [n * n] when that fits a [long]; and it has no defined value when
    the product overflows its type. *)
Theorem integer_base (tbl : macro_table) (n : Z) :
  tbl !! "GAMMA_H" = Some [TInt n] ->
  tbl !! "GAMMA_H_SQ" = None ->
  value_after (include_header tbl) "GAMMA_H_SQ"
  = if (Z.abs n <=? INT_MAX)%Z
    then (if in_int (n * n) then Some (VInt (n * n)) else None)
    else if (Z.abs n <=? LONG_MAX)%Z
         then (if in_long (n * n) then Some (VLong (n * n)) else None)
         else None.
Proof.
  intros H1 H2. rewrite include_header_union. cbn [value_after].
  set (m := <["GAMMA_H" := [TInt n]]>
            (<["GAMMA_H_SQ" := MRIConstants.GAMMA_H_SQ]> ∅) : macro_table).
  assert (Hsub : m ⊆ tbl ∪ header_macros) by (subst m; sub_table).
  assert (E : constant_expr (tbl ∪ header_macros) "GAMMA_H_SQ"
              = Some (EMul (EInt n) (EInt n))).
  { apply (constant_expr_mono m _ _ _ Hsub); [by vm_compute | cbn; tauto]. }
  unfold constant_value. rewrite E.
  cbn [eval of_int c_arith]. unfold literal_value.
  destruct (Z.abs n <=? INT_MAX)%Z; [reflexivity|].
  destruct (Z.abs n <=? LONG_MAX)%Z; reflexivity.
Qed.

Lemma integer_base_witness :
  value_after (include_header (<["GAMMA_H" := [TInt 267598700]]> ∅)) "GAMMA_H_SQ"
  = None.
Proof.
  apply (integer_base (<["GAMMA_H" := [TInt 267598700]]> ∅) 267598700); reflexivity.
Defined.

(** The literal 267598700 is an [int] whose square overflows; 3000000000 is
    a [long], and so is its square. *)
Example integer_base_long :
  value_after (include_header (<["GAMMA_H" := [TInt 3000000000]]> ∅)) "GAMMA_H_SQ"
  = Some (VLong 9000000000000000000).
Proof. by vm_compute. Qed.
